(** * Timestamp validation pass of [scripts/align.py]

    A shallow embedding of [align_audio] and the properties its specification
    states about the word list it returns.

    The function loads a transcript, walks its word list once, clamps the
    start of a word that overlaps the previously accepted one, skips words
    whose duration is not positive, and returns the surviving words with the
    transcript's text and language.

    What is modelled and how:
    - a timestamp is a Python [float], that is an IEEE 754 binary64 number,
      modelled by [spec_float] at precision 53 and maximal exponent 1024
      ([json.load] also yields [int] for a JSON number without fraction or
      exponent; it is taken at its [float] value, which orders and subtracts
      alike for every integer a binary64 number represents);
    - [json.load] accepts the literals [NaN], [Infinity] and [-Infinity], and
      reads an overflowing literal such as [1e999] as infinity, so every
      binary64 value can occur as a timestamp;
    - a word is the dict [{"word": .., "start": .., "end": ..}]; [json.load]
      builds one fresh dict per list element, so the in-place update
      [word['start'] = prev_end] touches the current word only and is
      modelled by a functional record update;
    - an exception is an explicit [Raise] result; the only one the loop can
      raise on a transcript of the documented schema is [IndexError];
    - reading and writing the files and the progress lines on standard
      output are left out of the typed pass: [align_audio] takes the parsed
      transcript and returns [output_data]. The module [Script] below
      models them, with the keys a dict may lack and the command line, and
      is proved to agree with the typed pass on complete transcripts. *)

From Stdlib Require Import ZArith String List Bool Lia Sorted DecimalString.
From Stdlib Require Import Floats.SpecFloat.
Import ListNotations.

(** ** Python floats *)

Module B64.

Definition prec : Z := 53.
Definition emax : Z := 1024.

Definition float : Type := spec_float.

(** The values a binary64 word can hold: a finite number has a canonical
    mantissa and an exponent in range. *)
Definition valid (x : float) : bool := valid_binary prec emax x.

Definition is_nan (x : float) : bool :=
  match x with S754_nan => true | _ => false end.

Definition is_finite (x : float) : bool :=
  match x with S754_zero _ | S754_finite _ _ _ => true | _ => false end.

(** [x - y], [x < y], [x <= y] and [x > y] on floats. *)
Definition sub (x y : float) : float := SFsub prec emax x y.
Definition ltb (x y : float) : bool := SFltb x y.
Definition leb (x y : float) : bool := SFleb x y.
Definition gtb (x y : float) : bool := SFltb y x.

(** [float(n)] for an integer, and the float a decimal literal [p/q]
    denotes (the correctly rounded quotient). *)
Definition of_Z (n : Z) : float := binary_normalize prec emax n 0 false.
Definition of_decimal (p q : Z) : float := SFdiv prec emax (of_Z p) (of_Z q).

(** The literals of the source: [0] and [0.5]. *)
Definition zero : float := S754_zero false.
Definition half : float := S754_finite false 4503599627370496 (-53).

(** Two infinities of one sign: their difference is not a number. *)
Definition same_inf (x y : float) : bool :=
  match x, y with
  | S754_infinity a, S754_infinity b => Bool.eqb a b
  | _, _ => false
  end.

Definition nan : float := S754_nan.

(** The smallest exponent, and the value of a finite float as an integer
    multiple of [2 ^ emin] (used to reason about order). *)
Definition emin : Z := SpecFloat.emin prec emax.

Definition scaled (x : float) : Z :=
  match x with
  | S754_finite s m e => cond_Zopp s (Zpos m * 2 ^ (e - emin))
  | _ => 0
  end.

End B64.

(** ** Results and exceptions *)

Inductive exn : Type :=
| IndexError.

Inductive result (A : Type) : Type :=
| Ok (a : A)
| Raise (e : exn).

Arguments Ok {A} a.
Arguments Raise {A} e.

Definition bind {A B : Type} (r : result A) (k : A -> result B) : result B :=
  match r with
  | Ok a => k a
  | Raise e => Raise e
  end.

Notation "x <- r ;; k" := (bind r (fun x => k))
  (at level 61, r at next level, right associativity).

(** ** The data model *)

(** One element of [transcription['words']]. *)
Record Word : Type := mkWord {
  word : string;
  start : B64.float;
  end_ : B64.float
}.

(** The parsed input: [language] is [None] when the key is absent. *)
Record Transcript : Type := mkTranscript {
  text : string;
  language : option string;
  words : list Word
}.

(** [output_data]. *)
Record AlignmentResult : Type := mkResult {
  out_text : string;
  out_language : string;
  out_words : list Word;
  alignment_method : string
}.

(** ** The validation pass *)

(** [word['start'] = s]. *)
Definition set_start (w : Word) (s : B64.float) : Word :=
  {| word := word w; start := s; end_ := end_ w |}.

(** [validated_words[-1]]: the last element, [IndexError] on an empty list. *)
Fixpoint last_item (l : list Word) : result Word :=
  match l with
  | [] => Raise IndexError
  | [w] => Ok w
  | _ :: l' => last_item l'
  end.

(** Lines 40-49: the gap and overlap check, run when [i > 0]. It returns the
    word, its start clamped on overlap. *)
Definition check_overlap (i : nat) (validated_words : list Word) (w : Word)
  : result Word :=
  if (0 <? i)%nat then
    prev <- last_item validated_words ;;
    let prev_end := end_ prev in
    let gap := B64.sub (start w) prev_end in
    if B64.ltb gap B64.zero then Ok (set_start w prev_end)
    else if B64.gtb gap B64.half then Ok w
    else Ok w
  else Ok w.

(** Lines 52-53: [duration <= 0]. *)
Definition zero_duration (w : Word) : bool :=
  let duration := B64.sub (end_ w) (start w) in
  B64.leb duration B64.zero.

(** Lines 38-58: one iteration of the loop; the result is [validated_words]
    after it. *)
Definition body (i : nat) (validated_words : list Word) (w : Word)
  : result (list Word) :=
  w' <- check_overlap i validated_words w ;;
  if zero_duration w' then Ok validated_words
  else Ok (validated_words ++ [w']).

(** [for i, word in enumerate(ws)], entered at index [i]. *)
Fixpoint loop (i : nat) (validated_words : list Word) (ws : list Word)
  : result (list Word) :=
  match ws with
  | [] => Ok validated_words
  | w :: rest =>
      validated_words' <- body i validated_words w ;;
      loop (S i) validated_words' rest
  end.

(** Lines 37-58. *)
Definition validate_words (ws : list Word) : result (list Word) :=
  loop 0 [] ws.

(** [transcription.get("language", "en")]. *)
Definition get_language (t : Transcript) : string :=
  match language t with
  | Some l => l
  | None => "en"
  end.

Definition align_audio (transcription : Transcript) : result AlignmentResult :=
  validated_words <- validate_words (words transcription) ;;
  Ok {| out_text := text transcription;
        out_language := get_language transcription;
        out_words := validated_words;
        alignment_method := "whisperx" |}.

(** ** Vocabulary of the specification *)

(** Both timestamps are binary64 values. *)
Definition wf_word (w : Word) : Prop :=
  B64.valid (start w) = true /\ B64.valid (end_ w) = true.

(** Neither timestamp is NaN. *)
Definition number_word (w : Word) : Prop :=
  B64.is_nan (start w) = false /\ B64.is_nan (end_ w) = false.

(** Both timestamps are finite numbers. *)
Definition finite_word (w : Word) : Prop :=
  B64.is_finite (start w) = true /\ B64.is_finite (end_ w) = true.

(** [start <= end], as Python evaluates it. *)
Definition start_le_end (w : Word) : Prop :=
  B64.leb (start w) (end_ w) = true.



(** The iteration at index [i] takes the [continue] branch: the word, after
    the overlap check, has a duration that is not positive. *)
Definition discarded (i : nat) (validated_words : list Word) (w : Word) : Prop :=
  exists w', check_overlap i validated_words w = Ok w' /\ zero_duration w' = true.

(** What a pass that neither clamps nor drops looks like: each word passes
    the overlap check unchanged after the words before it, and has a
    positive duration. *)
Definition untouched (v : list Word) : Prop :=
  forall (l1 : list Word) (w : Word) (l2 : list Word),
    v = l1 ++ w :: l2 ->
    check_overlap (length l1) l1 w = Ok w /\ zero_duration w = false.

(** The result read back as a transcript, to run the pass a second time. *)
Definition as_transcript (r : AlignmentResult) : Transcript :=
  {| text := out_text r;
     language := Some (out_language r);
     words := out_words r |}.

(** ** Sample transcripts *)

Module Samples.

Definition f0 : B64.float := B64.of_Z 0.
Definition f1 : B64.float := B64.of_Z 1.
Definition f2 : B64.float := B64.of_Z 2.
Definition f3 : B64.float := B64.of_Z 3.
Definition f0_9 : B64.float := B64.of_decimal 9 10.
Definition f1_2 : B64.float := B64.of_decimal 12 10.

(** [[{start:0,end:1},{start:0.9,end:2}]]: the second word overlaps. *)
Definition overlapping : list Word :=
  [mkWord "a" f0 f1; mkWord "b" f0_9 f2].

(** A zero-duration word between two accepted words. *)
Definition zero_between : list Word :=
  [mkWord "a" f0 f1; mkWord "b" f1 f1; mkWord "c" f1_2 f2].

(** A zero-duration word first, another word after it. *)
Definition zero_first : list Word :=
  [mkWord "a" f1 f1; mkWord "b" f2 f3].

(** A start that is not a number. *)
Definition nan_start : list Word :=
  [mkWord "a" B64.nan f1].




Definition transcript_of (ws : list Word) : Transcript :=
  {| text := "a b c"; language := None; words := ws |}.

Definition result_of (ws : list Word) : AlignmentResult :=
  {| out_text := "a b c"; out_language := "en"; out_words := ws;
     alignment_method := "whisperx" |}.

End Samples.

(** Discharges [Forall P ws] on a sample, [P] a conjunction of evaluations. *)
Ltac sample_words :=
  repeat (first [apply Forall_nil | apply Forall_cons]); split; reflexivity.

(** ** Further vocabulary *)

(** [l] is [l'] with some elements left out, the order kept. *)
Inductive subseq {A : Type} : list A -> list A -> Prop :=
| subseq_nil : subseq [] []
| subseq_skip (x : A) (l l' : list A) : subseq l l' -> subseq l (x :: l')
| subseq_keep (x : A) (l l' : list A) : subseq l l' -> subseq (x :: l) (x :: l').

(** What the pass never writes: a word's text and its end. *)
Definition text_and_end (w : Word) : string * B64.float := (word w, end_ w).

(** [start < end], as Python evaluates it. *)
Definition start_lt_end (w : Word) : Prop :=
  B64.ltb (start w) (end_ w) = true.


(** ** The script as it runs

    The same pass with what the typed model above leaves out: keys that may
    be missing from the dicts, the lines printed, the two files, and the
    command line. A dict is a record of optional fields, [None] for a
    missing key; the values present have the types of the documented schema
    and keys outside it are not modelled. Opening and parsing the
    transcript file is a function of the path giving a parsed transcript or
    the message of the exception raised; the output file is either written
    whole or refused when it is opened. What the script does to the world
    is the list of its effects, in order. *)

Module Script.

Record word_dict : Type := mkWordDict {
  d_word : option string;
  d_start : option B64.float;
  d_end : option B64.float
}.

Record transcript_dict : Type := mkTranscriptDict {
  d_text : option string;
  d_language : option string;
  d_words : option (list word_dict)
}.

(** [output_data]. *)
Record output_dict : Type := mkOutputDict {
  o_text : string;
  o_language : string;
  o_words : list word_dict;
  o_alignment_method : string
}.

Inductive exception : Type :=
| IndexError
| KeyError (key : string)
| ReadError (msg : string)
| WriteError (msg : string).

(** [str(e)], as the handler of [__main__] prints it. *)
Definition str (e : exception) : string :=
  match e with
  | IndexError => "list index out of range"
  | KeyError key => "'" ++ key ++ "'"
  | ReadError msg => msg
  | WriteError msg => msg
  end.

Inductive effect : Type :=
| ReadFile (path : string)
| WriteFile (path : string) (data : output_dict)
| Stdout (line : string)
| Stderr (line : string).

Record file_system : Type := mkFileSystem {
  read_json : string -> string + transcript_dict;
  open_write : string -> option string
}.

Inductive outcome (A : Type) : Type :=
| Return (a : A)
| Throw (e : exception).

Arguments Return {A} a.
Arguments Throw {A} e.

(** A computation: the effects it had, and how it ended. *)
Definition M (A : Type) : Type := list effect * outcome A.

Definition ret {A : Type} (a : A) : M A := ([], Return a).
Definition throw {A : Type} (e : exception) : M A := ([], Throw e).
Definition emit (e : effect) : M unit := ([e], Return tt).
Definition print (line : string) : M unit := emit (Stdout line).

Definition bind {A B : Type} (m : M A) (k : A -> M B) : M B :=
  match m with
  | (out, Return a) => let (out', r) := k a in (out ++ out', r)
  | (out, Throw e) => (out, Throw e)
  end.

Declare Scope script_scope.
Delimit Scope script_scope with script.
Notation "x <- r ;; k" := (bind r (fun x => k))
  (at level 61, r at next level, right associativity) : script_scope.
Notation "r ;; k" := (bind r (fun _ => k))
  (at level 61, right associativity) : script_scope.
Local Open Scope script_scope.

(** [d[key]]. *)
Definition item {A : Type} (key : string) (field : option A) : M A :=
  match field with
  | Some a => ret a
  | None => throw (KeyError key)
  end.

(** [validated_words[-1]]. *)
Fixpoint last_item (l : list word_dict) : M word_dict :=
  match l with
  | [] => throw IndexError
  | [w] => ret w
  | _ :: l' => last_item l'
  end.

(** [word['start'] = s]. *)
Definition set_start (w : word_dict) (s : B64.float) : word_dict :=
  {| d_word := d_word w; d_start := Some s; d_end := d_end w |}.

(** [str(n)] of a length. *)
Definition str_nat (n : nat) : string :=
  NilZero.string_of_uint (Nat.to_uint n).

(** Lines 38-58. *)
Definition body (i : nat) (validated_words : list word_dict) (w : word_dict)
  : M (list word_dict) :=
  w <- (if (0 <? i)%nat then
          prev <- last_item validated_words ;;
          prev_end <- item "end" (d_end prev) ;;
          s <- item "start" (d_start w) ;;
          let gap := B64.sub s prev_end in
          if B64.ltb gap B64.zero then ret (set_start w prev_end)
          else if B64.gtb gap B64.half then ret w
          else ret w
        else ret w) ;;
  e <- item "end" (d_end w) ;;
  s <- item "start" (d_start w) ;;
  let duration := B64.sub e s in
  if B64.leb duration B64.zero then
    name <- item "word" (d_word w) ;;
    print ("Warning: Skipping zero-duration word: " ++ name) ;;
    ret validated_words
  else ret (validated_words ++ [w]).

Fixpoint loop (i : nat) (validated_words : list word_dict)
    (ws : list word_dict) : M (list word_dict) :=
  match ws with
  | [] => ret validated_words
  | w :: rest =>
      validated_words' <- body i validated_words w ;;
      loop (S i) validated_words' rest
  end.

(** Lines 26-27: [open] and [json.load]. *)
Definition open_load (fs : file_system) (path : string) : M transcript_dict :=
  emit (ReadFile path) ;;
  match read_json fs path with
  | inl msg => throw (ReadError msg)
  | inr t => ret t
  end.

(** Lines 68-69: [open] and [json.dump]. *)
Definition open_dump (fs : file_system) (path : string) (data : output_dict)
  : M unit :=
  match open_write fs path with
  | Some msg => throw (WriteError msg)
  | None => emit (WriteFile path data)
  end.

(** Lines 22-74. *)
Definition align_audio (fs : file_system)
    (audio_file transcript_json output_json : string) : M output_dict :=
  transcription <- open_load fs transcript_json ;;
  print "Using WhisperX timestamps (already well-aligned)" ;;
  ws <- item "words" (d_words transcription) ;;
  print ("Total words: " ++ str_nat (length ws)) ;;
  validated_words <- loop 0 [] ws ;;
  tx <- item "text" (d_text transcription) ;;
  let output_data :=
    {| o_text := tx;
       o_language := match d_language transcription with
                     | Some l => l
                     | None => "en"
                     end;
       o_words := validated_words;
       o_alignment_method := "whisperx" |} in
  open_dump fs output_json output_data ;;
  print ("Alignment saved to: " ++ output_json) ;;
  print ("Validated words: " ++ str_nat (length validated_words)) ;;
  ret output_data.

Definition usage : string :=
  "Usage: python align.py <audio_file> <transcript_json> <output_json>".

(** Lines 76-89: the effects of a run and its exit status. *)
Definition main (fs : file_system) (argv : list string) : list effect * nat :=
  match argv with
  | [_; audio_file; transcript_json; output_json] =>
      match align_audio fs audio_file transcript_json output_json with
      | (out, Return _) => (out, 0%nat)
      | (out, Throw e) => (out ++ [Stderr ("Error: " ++ str e)], 1%nat)
      end
  | _ => ([Stdout usage], 1%nat)
  end.

(** The files written and read, and the lines on each stream. *)
Definition writes (out : list effect) : list (string * output_dict) :=
  flat_map (fun e => match e with WriteFile p d => [(p, d)] | _ => [] end) out.

Definition reads (out : list effect) : list string :=
  flat_map (fun e => match e with ReadFile p => [p] | _ => [] end) out.

Definition stdout (out : list effect) : list string :=
  flat_map (fun e => match e with Stdout l => [l] | _ => [] end) out.

Definition stderr (out : list effect) : list string :=
  flat_map (fun e => match e with Stderr l => [l] | _ => [] end) out.

(** A typed word as a dict with both timestamps and the text [name] gives
    it, if any. *)
Definition dict_of (name : Word -> option string) (w : Word) : word_dict :=
  {| d_word := name w; d_start := Some (start w); d_end := Some (end_ w) |}.

(** The dicts of the typed model: every key present. *)
Definition of_word (w : Word) : word_dict :=
  dict_of (fun w => Some (word w)) w.


(** The line printed for a skipped word. *)
Definition warning (name : string) : string :=
  "Warning: Skipping zero-duration word: " ++ name.

(** The effect is a line on standard output. *)
Definition is_stdout (e : effect) : Prop :=
  exists line, e = Stdout line.

Definition of_transcript (t : Transcript) : transcript_dict :=
  {| d_text := Some (text t);
     d_language := language t;
     d_words := Some (map of_word (words t)) |}.

Definition of_result (r : AlignmentResult) : output_dict :=
  {| o_text := out_text r;
     o_language := out_language r;
     o_words := map of_word (out_words r);
     o_alignment_method := alignment_method r |}.

(** A word dict with both timestamps. *)
Definition timed (w : word_dict) : bool :=
  match d_start w, d_end w with
  | Some _, Some _ => true
  | _, _ => false
  end.

(** A file system in which [path] holds the transcript [t]. *)
Definition holding (path : string) (t : transcript_dict) : file_system :=
  {| read_json := fun p => if String.eqb p path then inr t
                           else inl "No such file or directory"%string;
     open_write := fun _ => None |}.

End Script.

(** ** Order and subtraction on binary64 *)

Module B64Facts.
Import B64.
Local Open Scope Z_scope.

Lemma digits2_pos_bounds (m : positive) :
  2 ^ (Zpos (digits2_pos m) - 1) <= Zpos m < 2 ^ Zpos (digits2_pos m).
Proof.
  induction m as [m IH | m IH |]; simpl digits2_pos.
  - rewrite Pos2Z.inj_succ. change (Zpos m~1) with (2 * Zpos m + 1).
    replace (Z.succ (Zpos (digits2_pos m)) - 1) with (Z.succ (Zpos (digits2_pos m) - 1)) by lia.
    rewrite !Z.pow_succ_r by lia. lia.
  - rewrite Pos2Z.inj_succ. change (Zpos m~0) with (2 * Zpos m).
    replace (Z.succ (Zpos (digits2_pos m)) - 1) with (Z.succ (Zpos (digits2_pos m) - 1)) by lia.
    rewrite !Z.pow_succ_r by lia. lia.
  - simpl. lia.
Qed.

Lemma shr_1_m (r : shr_record) :
  0 <= shr_m r -> shr_m (shr_1 r) = shr_m r / 2.
Proof.
  destruct r as [m r s]; simpl shr_m; intros Hm.
  rewrite <- Z.div2_div.
  destruct m as [| [p | p |] | p]; try reflexivity; lia.
Qed.

Lemma iter_shr_1_m (p : positive) (r : shr_record) :
  0 <= shr_m r -> shr_m (iter_pos shr_1 p r) = shr_m r / 2 ^ Zpos p.
Proof.
  revert r. induction p as [p IH | p IH |]; intros r Hr; simpl iter_pos;
    try assert (Hp : 0 < 2 ^ Zpos p) by (apply Z.pow_pos_nonneg; lia).
  - assert (H1 : 0 <= shr_m (shr_1 r)) by (rewrite shr_1_m by lia; apply Z.div_pos; lia).
    assert (H2 : 0 <= shr_m (iter_pos shr_1 p (shr_1 r)))
      by (rewrite IH by lia; apply Z.div_pos; [lia | apply Z.pow_pos_nonneg; lia]).
    rewrite IH, IH, shr_1_m by lia.
    rewrite !Z.div_div by lia.
    f_equal. change (Zpos p~1) with (2 * Zpos p + 1).
    replace (2 * Zpos p + 1) with (1 + Zpos p + Zpos p) by lia.
    rewrite !Z.pow_add_r by lia. lia.
  - assert (H2 : 0 <= shr_m (iter_pos shr_1 p r))
      by (rewrite IH by lia; apply Z.div_pos; [lia | apply Z.pow_pos_nonneg; lia]).
    rewrite IH, IH by lia.
    rewrite !Z.div_div by lia.
    f_equal. change (Zpos p~0) with (2 * Zpos p).
    replace (2 * Zpos p) with (Zpos p + Zpos p) by lia.
    rewrite !Z.pow_add_r by lia. lia.
  - rewrite shr_1_m by lia. reflexivity.
Qed.

Lemma shr_record_of_loc_m (m : Z) (l : location) :
  shr_m (shr_record_of_loc m l) = m.
Proof. destruct l as [| []]; reflexivity. Qed.

Lemma shr_fexp_pos (m e : Z) (l : location) :
  0 < m -> emin <= e ->
  0 < shr_m (fst (shr_fexp prec emax m e l)) /\
  emin <= snd (shr_fexp prec emax m e l).
Proof.
  intros Hm He. unfold shr_fexp, shr.
  destruct m as [| p | p]; try lia. simpl Zdigits2.
  pose proof (digits2_pos_bounds p) as [Hlo Hhi].
  set (d := Zpos (digits2_pos p)) in *.
  unfold fexp. fold emin.
  destruct (Z.max (d + e - prec) emin - e) as [| n | n] eqn:Hn; simpl fst; simpl snd.
  - rewrite shr_record_of_loc_m. lia.
  - rewrite iter_shr_1_m by (rewrite shr_record_of_loc_m; lia).
    rewrite shr_record_of_loc_m. split; [| lia].
    apply Z.div_str_pos. split; [apply Z.pow_pos_nonneg; lia |].
    apply Z.le_trans with (2 ^ (d - 1)); [| exact Hlo].
    apply Z.pow_le_mono_r; [lia |]. unfold prec in Hn. lia.
  - rewrite shr_record_of_loc_m. lia.
Qed.

Lemma round_nearest_even_ge (m : Z) (l : location) :
  m <= round_nearest_even m l.
Proof.
  unfold round_nearest_even. destruct l as [| []]; try lia.
  destruct (Z.even m); lia.
Qed.

Lemma binary_round_aux_sign (s : bool) (m e : Z) (l : location) :
  0 < m -> emin <= e ->
  (exists m' e', binary_round_aux prec emax s m e l = S754_finite s m' e') \/
  binary_round_aux prec emax s m e l = S754_infinity s.
Proof.
  intros Hm He. unfold binary_round_aux.
  pose proof (shr_fexp_pos m e l Hm He) as [H1 H2].
  destruct (shr_fexp prec emax m e l) as [r1 e1]; simpl in H1, H2.
  pose proof (round_nearest_even_ge (shr_m r1) (loc_of_shr_record r1)) as Hr.
  assert (H3 : 0 < round_nearest_even (shr_m r1) (loc_of_shr_record r1)) by lia.
  pose proof (shr_fexp_pos _ e1 loc_Exact H3 H2) as [H4 H5].
  destruct (shr_fexp prec emax _ e1 loc_Exact) as [r2 e2]; simpl in H4, H5.
  destruct (shr_m r2) as [| q | q]; try lia.
  destruct (e2 <=? emax - prec); [left; eauto | right; reflexivity].
Qed.

Lemma iter_xO (d m : positive) :
  Zpos (Pos.iter xO m d) = Zpos m * 2 ^ Zpos d.
Proof.
  induction d as [| d IH] using Pos.peano_ind.
  - simpl. lia.
  - rewrite Pos.iter_succ, Pos2Z.inj_succ, Z.pow_succ_r by lia.
    change (Zpos (Pos.iter xO m d)~0) with (2 * Zpos (Pos.iter xO m d)). lia.
Qed.

Lemma shl_align_m (m : positive) (e e' : Z) :
  e' <= e -> Zpos (fst (shl_align m e e')) = Zpos m * 2 ^ (e - e').
Proof.
  intros H. unfold shl_align.
  destruct (e' - e) as [| d | d] eqn:Hd; simpl fst; try lia.
  - replace (e - e') with 0 by lia. lia.
  - rewrite iter_xO. f_equal. f_equal. lia.
Qed.

Lemma shl_align_e (m : positive) (e e' : Z) :
  emin <= e -> emin <= e' -> emin <= snd (shl_align m e e').
Proof.
  intros H H'. unfold shl_align. destruct (e' - e); simpl; lia.
Qed.

Lemma binary_round_sign (s : bool) (m : positive) (e : Z) :
  emin <= e ->
  (exists m' e', binary_round prec emax s m e = S754_finite s m' e') \/
  binary_round prec emax s m e = S754_infinity s.
Proof.
  intros He. unfold binary_round.
  pose proof (shl_align_e m e (fexp prec emax (Zpos (digits2_pos m) + e)) He) as H.
  destruct (shl_align m e _) as [mz ez]; simpl in H.
  apply binary_round_aux_sign; [lia |].
  apply H. unfold fexp. fold emin. lia.
Qed.


Lemma valid_finite (s : bool) (m : positive) (e : Z) :
  valid (S754_finite s m e) = true ->
  emin <= e /\ Zpos (digits2_pos m) <= prec /\
  (emin < e -> Zpos (digits2_pos m) = prec).
Proof.
  unfold valid, valid_binary, bounded, canonical_mantissa, fexp. fold emin.
  intros H. apply andb_true_iff in H. destruct H as [H _].
  apply Z.eqb_eq in H. lia.
Qed.

Lemma pow2_pos (k : Z) : 0 <= k -> 0 < 2 ^ k.
Proof. intros. apply Z.pow_pos_nonneg; lia. Qed.

Lemma cond_Zopp_scale (s : bool) (m : positive) (e ez : Z) :
  emin <= ez <= e ->
  cond_Zopp s (Zpos m * 2 ^ (e - ez)) * 2 ^ (ez - emin) =
  cond_Zopp s (Zpos m * 2 ^ (e - emin)).
Proof.
  intros H. replace (e - emin) with ((e - ez) + (ez - emin)) by lia.
  rewrite Z.pow_add_r by lia. destruct s; unfold cond_Zopp; ring.
Qed.

(** Magnitudes of canonical floats are ordered by exponent first. *)
Lemma mag_lt (s1 s2 : bool) (m1 m2 : positive) (e1 e2 : Z) :
  valid (S754_finite s1 m1 e1) = true ->
  valid (S754_finite s2 m2 e2) = true ->
  e1 < e2 ->
  Zpos m1 * 2 ^ (e1 - emin) < Zpos m2 * 2 ^ (e2 - emin).
Proof.
  intros V1 V2 He.
  apply valid_finite in V1. destruct V1 as (E1 & D1 & _).
  apply valid_finite in V2. destruct V2 as (E2 & _ & D2).
  specialize (D2 ltac:(lia)).
  pose proof (digits2_pos_bounds m1) as [_ H1].
  pose proof (digits2_pos_bounds m2) as [H2 _].
  rewrite D2 in H2.
  assert (H1' : Zpos m1 < 2 ^ prec).
  { eapply Z.lt_le_trans; [exact H1 |]. apply Z.pow_le_mono_r; lia. }
  replace (e2 - emin) with (1 + (e2 - e1 - 1) + (e1 - emin)) by lia.
  rewrite !Z.pow_add_r by lia.
  pose proof (pow2_pos (e1 - emin) ltac:(lia)) as HA.
  pose proof (pow2_pos (e2 - e1 - 1) ltac:(lia)) as HB.
  replace (2 ^ prec) with (2 * 2 ^ (prec - 1)) in H1'
    by (unfold prec; reflexivity).
  set (A := 2 ^ (e1 - emin)) in *. set (B := 2 ^ (e2 - e1 - 1)) in *.
  set (P := 2 ^ (prec - 1)) in *. change (2 ^ 1) with 2.
  assert (Zpos m1 * A < 2 * P * A) by nia.
  assert (2 * P * A <= 2 * P * (B * A)) by nia.
  assert (2 * P * (B * A) <= Zpos m2 * (2 * B * A)) by nia.
  lia.
Qed.

Lemma compare_cont_Eq (m1 m2 : positive) :
  Pos.compare_cont Eq m1 m2 = (Zpos m1 ?= Zpos m2).
Proof. reflexivity. Qed.

(** On valid finite floats [SFcompare] is the order of the scaled values. *)
Lemma compare_scaled (x y : float) :
  valid x = true -> valid y = true ->
  is_finite x = true -> is_finite y = true ->
  SFcompare x y = Some (scaled x ?= scaled y).
Proof.
  intros Vx Vy Fx Fy.
  destruct x as [sx | sx | | sx mx ex]; try discriminate;
  destruct y as [sy | sy | | sy my ey]; try discriminate;
  simpl SFcompare; unfold scaled.
  - reflexivity.
  - pose proof (valid_finite _ _ _ Vy) as (E & _).
    pose proof (pow2_pos (ey - emin) ltac:(lia)).
    f_equal. symmetry. destruct sy; unfold cond_Zopp.
    + apply Z.compare_gt_iff. nia.
    + apply Z.compare_lt_iff. nia.
  - pose proof (valid_finite _ _ _ Vx) as (E & _).
    pose proof (pow2_pos (ex - emin) ltac:(lia)).
    f_equal. symmetry. destruct sx; unfold cond_Zopp.
    + apply Z.compare_lt_iff. nia.
    + apply Z.compare_gt_iff. nia.
  - pose proof (valid_finite _ _ _ Vx) as (Ex & _).
    pose proof (valid_finite _ _ _ Vy) as (Ey & _).
    pose proof (pow2_pos (ex - emin) ltac:(lia)) as Px.
    pose proof (pow2_pos (ey - emin) ltac:(lia)) as Py.
    f_equal. symmetry.
    destruct sx, sy; unfold cond_Zopp.
    + destruct (Z.compare_spec ex ey) as [He | He | He].
      * subst ey. rewrite compare_cont_Eq.
        destruct (Z.compare_spec (Zpos mx) (Zpos my)) as [Hm | Hm | Hm]; cbn [CompOpp].
        -- apply Z.compare_eq_iff. rewrite Hm. reflexivity.
        -- apply Z.compare_gt_iff. nia.
        -- apply Z.compare_lt_iff. nia.
      * pose proof (mag_lt _ _ _ _ _ _ Vx Vy He). apply Z.compare_gt_iff. lia.
      * pose proof (mag_lt _ _ _ _ _ _ Vy Vx He). apply Z.compare_lt_iff. lia.
    + apply Z.compare_lt_iff. nia.
    + apply Z.compare_gt_iff. nia.
    + destruct (Z.compare_spec ex ey) as [He | He | He].
      * subst ey. rewrite compare_cont_Eq.
        destruct (Z.compare_spec (Zpos mx) (Zpos my)) as [Hm | Hm | Hm]; cbn [CompOpp].
        -- apply Z.compare_eq_iff. rewrite Hm. reflexivity.
        -- apply Z.compare_lt_iff. nia.
        -- apply Z.compare_gt_iff. nia.
      * pose proof (mag_lt _ _ _ _ _ _ Vx Vy He). apply Z.compare_lt_iff. lia.
      * pose proof (mag_lt _ _ _ _ _ _ Vy Vx He). apply Z.compare_gt_iff. lia.
Qed.

Lemma binary_normalize_compare (m e : Z) :
  emin <= e ->
  SFcompare (binary_normalize prec emax m e false) zero = Some (m ?= 0).
Proof.
  intros He. destruct m as [| p | p]; simpl binary_normalize.
  - reflexivity.
  - destruct (binary_round_sign false p e He) as [(m' & e' & ->) | ->]; reflexivity.
  - destruct (binary_round_sign true p e He) as [(m' & e' & ->) | ->]; reflexivity.
Qed.

(** The sign of a difference of valid finite floats is the sign of the exact
    difference: rounding never turns a non-zero difference into zero. *)
Lemma sub_compare_scaled (x y : float) :
  valid x = true -> valid y = true ->
  is_finite x = true -> is_finite y = true ->
  SFcompare (sub x y) zero = Some (scaled x ?= scaled y).
Proof.
  intros Vx Vy Fx Fy.
  destruct x as [sx | sx | | sx mx ex]; try discriminate;
  destruct y as [sy | sy | | sy my ey]; try discriminate.
  - destruct sx, sy; reflexivity.
  - rewrite <- (compare_scaled (S754_zero sx) (S754_finite sy my ey)) by assumption.
    destruct sy; reflexivity.
  - rewrite <- (compare_scaled (S754_finite sx mx ex) (S754_zero sy)) by assumption.
    destruct sx; reflexivity.
  - pose proof (valid_finite _ _ _ Vx) as (Ex & _).
    pose proof (valid_finite _ _ _ Vy) as (Ey & _).
    unfold sub, SFsub. cbv zeta.
    rewrite !shl_align_m by lia.
    rewrite binary_normalize_compare by lia.
    f_equal. unfold scaled.
    rewrite <- (cond_Zopp_scale sx mx ex (Z.min ex ey)) by lia.
    rewrite <- (cond_Zopp_scale sy my ey (Z.min ex ey)) by lia.
    pose proof (pow2_pos (Z.min ex ey - emin) ltac:(lia)) as HP.
    set (a := cond_Zopp sx _). set (b := cond_Zopp sy _).
    set (P := 2 ^ _) in *.
    destruct (Z.compare_spec (a - b) 0) as [H | H | H]; symmetry.
    + apply Z.compare_eq_iff. nia.
    + apply Z.compare_lt_iff. nia.
    + apply Z.compare_gt_iff. nia.
Qed.



(** Apart from that case, [x - y] compares to zero as [x] compares to [y]. *)
Lemma sub_compare (x y : float) :
  valid x = true -> valid y = true ->
  is_nan x = false -> is_nan y = false -> same_inf x y = false ->
  SFcompare (sub x y) zero = SFcompare x y.
Proof.
  intros Vx Vy Nx Ny S.
  destruct (is_finite x) eqn:Fx; destruct (is_finite y) eqn:Fy.
  - rewrite sub_compare_scaled, compare_scaled by assumption. reflexivity.
  - destruct x as [sx | sx | | sx mx ex]; try discriminate;
    destruct y as [sy | sy | | sy my ey]; try discriminate;
    destruct sy; reflexivity.
  - destruct x as [sx | sx | | sx mx ex]; try discriminate;
    destruct y as [sy | sy | | sy my ey]; try discriminate;
    destruct sx; reflexivity.
  - destruct x as [sx | sx | | sx mx ex]; try discriminate;
    destruct y as [sy | sy | | sy my ey]; try discriminate;
    destruct sx, sy; try discriminate; reflexivity.
Qed.

Lemma compare_antisym (x y : float) (c : comparison) :
  valid x = true -> valid y = true ->
  SFcompare x y = Some c -> SFcompare y x = Some (CompOpp c).
Proof.
  intros Vx Vy H.
  destruct (is_finite x) eqn:Fx; destruct (is_finite y) eqn:Fy.
  - rewrite compare_scaled in H by assumption.
    rewrite compare_scaled by assumption.
    injection H as <-. f_equal. apply Z.compare_antisym.
  - destruct x as [sx | sx | | sx mx ex]; try discriminate;
    destruct y as [sy | sy | | sy my ey]; try discriminate;
    destruct sy; simpl in H |- *; injection H as <-; reflexivity.
  - destruct x as [sx | sx | | sx mx ex]; try discriminate;
    destruct y as [sy | sy | | sy my ey]; try discriminate;
    destruct sx; simpl in H |- *; injection H as <-; reflexivity.
  - destruct x as [sx | sx | | sx mx ex]; try discriminate;
    destruct y as [sy | sy | | sy my ey]; try discriminate;
    destruct sx, sy; simpl in H |- *; injection H as <-; reflexivity.
Qed.

Lemma compare_some (x y : float) :
  is_nan x = false -> is_nan y = false -> exists c, SFcompare x y = Some c.
Proof.
  destruct x as [sx | sx | | sx mx ex]; try discriminate;
  destruct y as [sy | sy | | sy my ey]; try discriminate;
  intros _ _; simpl; eauto.
Qed.

Lemma leb_refl (x : float) : is_nan x = false -> leb x x = true.
Proof.
  unfold leb, SFleb.
  destruct x as [sx | sx | | sx mx ex]; try discriminate; intros _; simpl.
  - reflexivity.
  - destruct sx; reflexivity.
  - rewrite Z.compare_refl, Pos.compare_cont_refl. destruct sx; reflexivity.
Qed.

(** [x - x] is [+0] or not a number, never negative. *)
Lemma sub_self_not_neg (x : float) : ltb (sub x x) zero = false.
Proof.
  destruct x as [sx | sx | | sx mx ex].
  - destruct sx; reflexivity.
  - destruct sx; reflexivity.
  - reflexivity.
  - unfold sub, SFsub. cbv zeta. rewrite Z.sub_diag. reflexivity.
Qed.

(** A non-positive-duration test that fails means [s <= e]. *)
Lemma positive_sub_le (e s : float) :
  valid e = true -> valid s = true ->
  is_nan e = false -> is_nan s = false ->
  leb (sub e s) zero = false -> leb s e = true.
Proof.
  intros Ve Vs Ne Ns H.
  destruct (same_inf e s) eqn:S.
  - destruct e as [| a | |]; try discriminate.
    destruct s as [| b | |]; try discriminate.
    destruct a, b; try discriminate; reflexivity.
  - unfold leb, SFleb in *. rewrite sub_compare in H by assumption.
    destruct (compare_some e s Ne Ns) as [c Hc]. rewrite Hc in H.
    rewrite (compare_antisym e s c Ve Vs Hc).
    destruct c; try discriminate; reflexivity.
Qed.




Lemma finite_not_same_inf_r (x y : float) :
  is_finite y = true -> same_inf x y = false.
Proof. destruct x, y; try discriminate; reflexivity. Qed.



End B64Facts.

(** ** The loop *)

Lemma bind_ok {A B : Type} (r : result A) (k : A -> result B) (b : B) :
  bind r k = Ok b -> exists a, r = Ok a /\ k a = Ok b.
Proof. destruct r as [a | e]; simpl; [eauto | discriminate]. Qed.


Lemma last_item_nonempty (l : list Word) :
  l <> [] -> exists p, last_item l = Ok p.
Proof.
  induction l as [| a l IH]; [congruence |]. intros _.
  destruct l as [| b l]; [simpl; eauto |].
  destruct IH as [p Hp]; [discriminate |]. exists p. exact Hp.
Qed.

Lemma last_item_In (l : list Word) (p : Word) : last_item l = Ok p -> In p l.
Proof.
  induction l as [| a l IH]; [discriminate |].
  destruct l as [| b l].
  - simpl. intros [= ->]. now left.
  - intros H. right. apply IH. exact H.
Qed.

(** The word the overlap check returns: the word itself, or the word with
    its start moved to the end of the last accepted word. *)
Lemma check_overlap_cases (i : nat) (v : list Word) (w w' : Word) :
  check_overlap i v w = Ok w' ->
  w' = w \/
  exists p, (0 < i)%nat /\ last_item v = Ok p /\
            B64.ltb (B64.sub (start w) (end_ p)) B64.zero = true /\
            w' = set_start w (end_ p).
Proof.
  unfold check_overlap. destruct (0 <? i)%nat eqn:Hi.
  - destruct (last_item v) as [p |] eqn:Hp; simpl; [| discriminate].
    destruct (B64.ltb _ B64.zero) eqn:Hg.
    + intros [= <-]. right. exists p. apply Nat.ltb_lt in Hi. auto.
    + destruct (B64.gtb _ B64.half); intros [= <-]; now left.
  - intros [= <-]. now left.
Qed.

Lemma check_overlap_no_clamp (i : nat) (v : list Word) (w w' p : Word) :
  check_overlap i v w = Ok w' -> (0 < i)%nat -> last_item v = Ok p ->
  B64.ltb (B64.sub (start w') (end_ p)) B64.zero = false.
Proof.
  unfold check_overlap. intros H Hi Hp.
  apply Nat.ltb_lt in Hi. rewrite Hi, Hp in H. simpl in H.
  destruct (B64.ltb _ B64.zero) eqn:Hg.
  - injection H as <-. simpl. apply B64Facts.sub_self_not_neg.
  - destruct (B64.gtb _ B64.half); injection H as <-; exact Hg.
Qed.

(** One iteration either leaves [validated_words] as it is or appends the
    checked word. *)
Lemma body_cases (i : nat) (v v' : list Word) (w : Word) :
  body i v w = Ok v' ->
  (v' = v /\ discarded i v w) \/
  (exists w', check_overlap i v w = Ok w' /\ zero_duration w' = false /\
              v' = v ++ [w']).
Proof.
  unfold body, discarded. intros H.
  apply bind_ok in H. destruct H as (w' & Hc & H).
  destruct (zero_duration w') eqn:Hz; injection H as <-; eauto.
Qed.




Lemma loop_app (l1 l2 : list Word) :
  forall (i : nat) (v : list Word),
    loop i v (l1 ++ l2) =
    (v' <- loop i v l1 ;; loop (i + length l1) v' l2).
Proof.
  induction l1 as [| w l1 IH]; intros i v; simpl.
  - rewrite Nat.add_0_r. reflexivity.
  - destruct (body i v w) as [v1 |]; [| reflexivity]. simpl.
    rewrite IH. replace (S i + length l1)%nat with (i + S (length l1))%nat by lia.
    reflexivity.
Qed.

(** Invariant rule: a property of the index and of [validated_words] that
    every iteration preserves holds when the loop ends. *)
Lemma loop_invariant (Q : Word -> Prop) (P : nat -> list Word -> Prop) :
  (forall i v w v', Q w -> P i v -> body i v w = Ok v' -> P (S i) v') ->
  forall (ws : list Word) (i : nat) (v out : list Word),
    Forall Q ws -> P i v -> loop i v ws = Ok out ->
    P (i + length ws)%nat out.
Proof.
  intros Hstep. induction ws as [| w ws IH]; intros i v out HQ HP H; simpl in H.
  - injection H as <-. simpl. rewrite Nat.add_0_r. exact HP.
  - apply bind_ok in H. destruct H as (v1 & Hb & Hl).
    inversion HQ as [| ? ? Hw Hws]; subst.
    simpl. replace (i + S (length ws))%nat with (S i + length ws)%nat by lia.
    eapply IH; eauto.
Qed.

Lemma Forall_any (l : list Word) : Forall (fun _ => True) l.
Proof. induction l; constructor; auto. Qed.



(** ** The output of the pass *)

Lemma align_audio_ok (t : Transcript) (res : AlignmentResult) :
  align_audio t = Ok res ->
  validate_words (words t) = Ok (out_words res) /\
  out_text res = text t /\
  out_language res = get_language t /\
  alignment_method res = "whisperx"%string.
Proof.
  unfold align_audio. intros H. apply bind_ok in H.
  destruct H as (v & Hv & H). injection H as <-. simpl. auto.
Qed.


(** Accepted words keep binary64 timestamps: a start is only ever replaced
    by the end of an accepted word. *)
Lemma body_wf (i : nat) (v v' : list Word) (w : Word) :
  wf_word w -> Forall wf_word v -> body i v w = Ok v' -> Forall wf_word v'.
Proof.
  intros Hw Hv H. apply body_cases in H.
  destruct H as [[-> _] | (w' & Hc & _ & ->)]; [exact Hv |].
  apply Forall_app. split; [exact Hv |]. constructor; [| constructor].
  apply check_overlap_cases in Hc.
  destruct Hc as [-> | (p & _ & Hp & _ & ->)]; [exact Hw |].
  apply last_item_In in Hp. rewrite Forall_forall in Hv.
  destruct (Hv p Hp) as [_ Hpe]. destruct Hw as [_ Hwe]. split; assumption.
Qed.

Lemma body_number (i : nat) (v v' : list Word) (w : Word) :
  number_word w -> Forall number_word v -> body i v w = Ok v' ->
  Forall number_word v'.
Proof.
  intros Hw Hv H. apply body_cases in H.
  destruct H as [[-> _] | (w' & Hc & _ & ->)]; [exact Hv |].
  apply Forall_app. split; [exact Hv |]. constructor; [| constructor].
  apply check_overlap_cases in Hc.
  destruct Hc as [-> | (p & _ & Hp & _ & ->)]; [exact Hw |].
  apply last_item_In in Hp. rewrite Forall_forall in Hv.
  destruct (Hv p Hp) as [_ Hpe]. destruct Hw as [_ Hwe]. split; assumption.
Qed.


(** An accepted word of numbers starts no later than it ends. *)
Lemma body_start_le_end (i : nat) (v v' : list Word) (w : Word) :
  wf_word w -> number_word w ->
  Forall wf_word v -> Forall number_word v -> Forall start_le_end v ->
  body i v w = Ok v' -> Forall start_le_end v'.
Proof.
  intros Hw Nw Hv Nv Sv H.
  assert (Hv' : Forall wf_word v') by (eapply body_wf; eauto).
  assert (Nv' : Forall number_word v') by (eapply body_number; eauto).
  apply body_cases in H.
  destruct H as [[-> _] | (w' & Hc & Hz & ->)]; [exact Sv |].
  apply Forall_app. split; [exact Sv |]. constructor; [| constructor].
  apply Forall_app in Hv'. destruct Hv' as [_ Hw'].
  apply Forall_app in Nv'. destruct Nv' as [_ Nw'].
  inversion Hw' as [| ? ? [W1 W2] _]; subst.
  inversion Nw' as [| ? ? [N1 N2] _]; subst.
  unfold start_le_end. unfold zero_duration in Hz.
  apply B64Facts.positive_sub_le; assumption.
Qed.


(** A second pass over accepted words accepts each of them unchanged. *)
Lemma check_overlap_stable (i : nat) (v : list Word) (w w' : Word) :
  (i = 0%nat -> v = []) ->
  check_overlap i v w = Ok w' ->
  check_overlap (length v) v w' = Ok w'.
Proof.
  intros Hi Hc.
  unfold check_overlap. destruct (0 <? length v)%nat eqn:Hl; [| reflexivity].
  apply Nat.ltb_lt in Hl.
  destruct (last_item_nonempty v) as [p Hp].
  { intros ->. simpl in Hl. lia. }
  rewrite Hp. simpl.
  assert (Hpos : (0 < i)%nat).
  { destruct i; [| lia]. rewrite Hi in Hl by reflexivity. simpl in Hl. lia. }
  rewrite (check_overlap_no_clamp _ _ _ _ _ Hc Hpos Hp).
  destruct (B64.gtb _ B64.half); reflexivity.
Qed.

Lemma body_stable (i : nat) (v : list Word) (w w' : Word) :
  (i = 0%nat -> v = []) ->
  check_overlap i v w = Ok w' -> zero_duration w' = false ->
  body (length v) v w' = Ok (v ++ [w']).
Proof.
  intros Hi Hc Hz. unfold body.
  rewrite (check_overlap_stable i v w w' Hi Hc). simpl. rewrite Hz. reflexivity.
Qed.

Lemma untouched_snoc (v : list Word) (w : Word) :
  untouched v ->
  check_overlap (length v) v w = Ok w -> zero_duration w = false ->
  untouched (v ++ [w]).
Proof.
  intros Hv Hc Hz l1 x l2 E.
  induction l2 as [| y l2 _] using rev_ind.
  - apply app_inj_tail in E. destruct E as [-> ->]. auto.
  - change (l1 ++ x :: l2 ++ [y]) with (l1 ++ (x :: l2) ++ [y]) in E.
    rewrite app_assoc in E. apply app_inj_tail in E. destruct E as [E _].
    apply (Hv l1 x l2 E).
Qed.

Lemma validate_words_stable (ws out : list Word) :
  validate_words ws = Ok out ->
  validate_words out = Ok out /\ untouched out.
Proof.
  intros H.
  apply (loop_invariant (fun _ => True)
           (fun i v => (i = 0%nat -> v = []) /\
                       validate_words v = Ok v /\ untouched v)) in H.
  - apply H.
  - intros i v w v' _ (Hi & Hv & Uv) Hb. split; [intros; discriminate |].
    apply body_cases in Hb.
    destruct Hb as [[-> _] | (w' & Hc & Hz & ->)]; [auto |].
    split.
    + unfold validate_words in *. rewrite loop_app, Hv. simpl.
      rewrite (body_stable i v w w' Hi Hc Hz). reflexivity.
    + apply untouched_snoc; auto.
      apply (check_overlap_stable i v w w' Hi Hc).
  - apply Forall_any.
  - split; [reflexivity |]. split; [reflexivity |].
    intros l1 x l2 E. destruct l1; discriminate E.
Qed.


(** ** The claims of the specification *)

(** C1, as the specification states it, fails: [json.load] reads [NaN] as a
    float, no comparison with it holds, so the word
    [{start: NaN, end: 1}] is accepted and [start <= end] is false for it. *)
Lemma nan_start_breaks_start_le_end :
  Forall wf_word (words (Samples.transcript_of Samples.nan_start)) /\
  align_audio (Samples.transcript_of Samples.nan_start)
    = Ok (Samples.result_of Samples.nan_start) /\
  ~ Forall start_le_end (out_words (Samples.result_of Samples.nan_start)).
Proof.
  split; [sample_words |]. split; [reflexivity |].
  intros H. inversion H as [| ? ? Hw _]; subst. discriminate Hw.
Qed.

(** C1 (amended): for every transcript whose timestamps are numbers (no NaN)
    and on which [align_audio] returns a result, every word of the output
    satisfies [start <= end]. *)
Theorem output_start_le_end (t : Transcript) (res : AlignmentResult) :
  Forall wf_word (words t) ->
  Forall number_word (words t) ->
  align_audio t = Ok res ->
  Forall start_le_end (out_words res).
Proof.
  intros Hwf Hnum H. apply align_audio_ok in H. destruct H as (H & _).
  apply (loop_invariant (fun w => wf_word w /\ number_word w)
           (fun _ v => Forall wf_word v /\ Forall number_word v /\
                       Forall start_le_end v)) in H.
  - apply H.
  - intros i v w v' [Hw Nw] (Hv & Nv & Sv) Hb. repeat split.
    + eapply body_wf; eauto.
    + eapply body_number; eauto.
    + eapply body_start_le_end; eauto.
  - rewrite Forall_forall in *. auto.
  - repeat split; constructor.
Qed.

Lemma output_start_le_end_witness :
  Forall start_le_end (out_words (Samples.result_of
    [mkWord "a" Samples.f0 Samples.f1; mkWord "b" Samples.f1 Samples.f2])).
Proof.
  apply (output_start_le_end (Samples.transcript_of Samples.overlapping)).
  - sample_words.
  - sample_words.
  - reflexivity.
Defined.




(** C3: the failing input. The first word has zero duration and is skipped;
    the second finds [validated_words] empty and the run stops with
    [IndexError] instead of repairing or dropping a word. *)
Theorem zero_first_word_aborts :
  align_audio (Samples.transcript_of Samples.zero_first) = Raise IndexError.
Proof. reflexivity. Qed.

(** C4: the pass is idempotent. When [align_audio] returns a result, running
    it on that result returns the same result: the same words and the same
    text, language and alignment method; in that second run no start is
    clamped and no word is dropped. *)
Theorem validation_idempotent (t : Transcript) (res : AlignmentResult) :
  align_audio t = Ok res ->
  align_audio (as_transcript res) = Ok res /\
  untouched (out_words res).
Proof.
  intros H. apply align_audio_ok in H. destruct H as (Hw & _ & _ & Hm).
  apply validate_words_stable in Hw. destruct Hw as [Hw Hu].
  split; [| exact Hu].
  unfold align_audio. simpl. rewrite Hw. simpl.
  destruct res as [tx lg ws m]; simpl in *. subst m. reflexivity.
Qed.

Lemma validation_idempotent_witness :
  align_audio (as_transcript (Samples.result_of
    [mkWord "a" Samples.f0 Samples.f1; mkWord "b" Samples.f1 Samples.f2]))
  = Ok (Samples.result_of
    [mkWord "a" Samples.f0 Samples.f1; mkWord "b" Samples.f1 Samples.f2]) /\
  untouched (out_words (Samples.result_of
    [mkWord "a" Samples.f0 Samples.f1; mkWord "b" Samples.f1 Samples.f2])).
Proof.
  apply (validation_idempotent (Samples.transcript_of Samples.overlapping)).
  reflexivity.
Defined.






(** C7: on [[{start:0,end:1},{start:0.9,end:2}]] the second start is clamped
    to the first end and both words are kept:
    [[{start:0,end:1},{start:1,end:2}]]. *)
Theorem overlap_scenario (tx : string) (lg : option string) (a b : string) :
  align_audio
    (mkTranscript tx lg
       [mkWord a (B64.of_Z 0) (B64.of_Z 1);
        mkWord b (B64.of_decimal 9 10) (B64.of_Z 2)])
  = Ok (mkResult tx (match lg with Some l => l | None => "en"%string end)
       [mkWord a (B64.of_Z 0) (B64.of_Z 1);
        mkWord b (B64.of_Z 1) (B64.of_Z 2)]
       "whisperx").
Proof. reflexivity. Qed.

(** C8: without a [language] key the output language is ["en"]; with the
    key, its value is passed through. *)
Theorem language_default (t : Transcript) (res : AlignmentResult) :
  align_audio t = Ok res ->
  (language t = None -> out_language res = "en"%string) /\
  (forall l, language t = Some l -> out_language res = l).
Proof.
  intros H. apply align_audio_ok in H. destruct H as (_ & _ & Hl & _).
  rewrite Hl. unfold get_language.
  split; [intros -> | intros l ->]; reflexivity.
Qed.

Lemma language_default_witness :
  (language (Samples.transcript_of Samples.overlapping) = None ->
   out_language (Samples.result_of
     [mkWord "a" Samples.f0 Samples.f1; mkWord "b" Samples.f1 Samples.f2])
   = "en"%string) /\
  (forall l, language (Samples.transcript_of Samples.overlapping) = Some l ->
   out_language (Samples.result_of
     [mkWord "a" Samples.f0 Samples.f1; mkWord "b" Samples.f1 Samples.f2]) = l).
Proof.
  apply (language_default (Samples.transcript_of Samples.overlapping)).
  reflexivity.
Defined.

(** C9: the result carries the constant ["whisperx"], the input's text and
    its language (["en"] when absent); its words are what the validation
    pass returns on the input's words. *)
Theorem result_fields (t : Transcript) (res : AlignmentResult) :
  align_audio t = Ok res ->
  alignment_method res = "whisperx"%string /\
  out_text res = text t /\
  out_language res = match language t with Some l => l | None => "en"%string end /\
  validate_words (words t) = Ok (out_words res).
Proof.
  intros H. apply align_audio_ok in H. destruct H as (Hw & Ht & Hl & Hm).
  auto.
Qed.

Lemma result_fields_witness :
  alignment_method (Samples.result_of
     [mkWord "a" Samples.f0 Samples.f1; mkWord "b" Samples.f1 Samples.f2])
    = "whisperx"%string /\
  out_text (Samples.result_of
     [mkWord "a" Samples.f0 Samples.f1; mkWord "b" Samples.f1 Samples.f2])
    = text (Samples.transcript_of Samples.overlapping) /\
  out_language (Samples.result_of
     [mkWord "a" Samples.f0 Samples.f1; mkWord "b" Samples.f1 Samples.f2])
    = match language (Samples.transcript_of Samples.overlapping) with
      | Some l => l
      | None => "en"%string
      end /\
  validate_words (words (Samples.transcript_of Samples.overlapping))
    = Ok (out_words (Samples.result_of
     [mkWord "a" Samples.f0 Samples.f1; mkWord "b" Samples.f1 Samples.f2])).
Proof.
  apply (result_fields (Samples.transcript_of Samples.overlapping)).
  reflexivity.
Defined.




(** ** More on binary64 order *)

Module B64Order.
Import B64.
Local Open Scope Z_scope.





(** On finite floats a failed duration test means [s < e]. *)
Lemma positive_sub_lt (e s : float) :
  valid e = true -> valid s = true ->
  is_finite e = true -> is_finite s = true ->
  leb (sub e s) zero = false -> ltb s e = true.
Proof.
  intros Ve Vs Fe Fs H. unfold leb, SFleb, ltb, SFltb in *.
  rewrite B64Facts.sub_compare_scaled in H by assumption.
  rewrite B64Facts.compare_scaled by assumption.
  rewrite Z.compare_antisym.
  destruct (scaled e ?= scaled s); try discriminate; reflexivity.
Qed.


End B64Order.

(** ** More on the validation pass *)



(** The loop only appends, and what it appends are input words in their
    order, text and end untouched. *)
Lemma check_overlap_text_and_end (i : nat) (v : list Word) (w w' : Word) :
  check_overlap i v w = Ok w' -> text_and_end w' = text_and_end w.
Proof.
  intros H. apply check_overlap_cases in H.
  destruct H as [-> | (p & _ & _ & _ & ->)]; reflexivity.
Qed.

Lemma loop_subseq (ws : list Word) :
  forall (i : nat) (v out : list Word),
    loop i v ws = Ok out ->
    exists added,
      out = v ++ added /\
      subseq (map text_and_end added) (map text_and_end ws).
Proof.
  induction ws as [| w ws IH]; intros i v out H; simpl in H.
  - injection H as <-. exists []. rewrite app_nil_r. split; [reflexivity | constructor].
  - apply bind_ok in H. destruct H as (v1 & Hb & Hl).
    apply IH in Hl. destruct Hl as (added & -> & Hs).
    apply body_cases in Hb.
    destruct Hb as [[-> _] | (w' & Hc & _ & ->)].
    + exists added. split; [reflexivity |]. simpl. apply subseq_skip. exact Hs.
    + exists (w' :: added). rewrite <- app_assoc. split; [reflexivity |].
      simpl. rewrite (check_overlap_text_and_end _ _ _ _ Hc).
      apply subseq_keep. exact Hs.
Qed.

Lemma subseq_length {A : Type} (l l' : list A) :
  subseq l l' -> (length l <= length l')%nat.
Proof. induction 1; simpl; lia. Qed.

(** A property of each element and the elements before it extends to an
    appended element. *)
Lemma prefix_property_snoc (R : list Word -> Word -> Prop)
    (v : list Word) (w : Word) :
  (forall l1 x l2, v = l1 ++ x :: l2 -> R l1 x) ->
  R v w ->
  forall l1 x l2, v ++ [w] = l1 ++ x :: l2 -> R l1 x.
Proof.
  intros Hv Hw l1 x l2 E.
  induction l2 as [| y l2 _] using rev_ind.
  - apply app_inj_tail in E. destruct E as [-> ->]. exact Hw.
  - change (l1 ++ x :: l2 ++ [y]) with (l1 ++ (x :: l2) ++ [y]) in E.
    rewrite app_assoc in E. apply app_inj_tail in E. destruct E as [E _].
    apply (Hv l1 x l2 E).
Qed.






(** The first iteration: no overlap check, only the duration test. *)
Lemma loop_first_accepted (w0 : Word) (rest : list Word) :
  zero_duration w0 = false -> loop 0 [] (w0 :: rest) = loop 1 [w0] rest.
Proof. intros Hz. simpl. unfold body. simpl. rewrite Hz. reflexivity. Qed.

Lemma loop_first_dropped (w0 : Word) (rest : list Word) :
  zero_duration w0 = true -> loop 0 [] (w0 :: rest) = loop 1 [] rest.
Proof. intros Hz. simpl. unfold body. simpl. rewrite Hz. reflexivity. Qed.

(** ** Further properties of the pass *)


(** X2: the output words are input words in their input order, with their
    text and end as in the input: the pass drops words and moves starts,
    and does nothing else. In particular the output is no longer than the
    input. *)
Theorem output_subsequence (t : Transcript) (res : AlignmentResult) :
  align_audio t = Ok res ->
  subseq (map text_and_end (out_words res)) (map text_and_end (words t)) /\
  (length (out_words res) <= length (words t))%nat.
Proof.
  intros H. apply align_audio_ok in H. destruct H as (H & _).
  apply loop_subseq in H. destruct H as (added & E & Hs). simpl in E.
  rewrite E. split; [exact Hs |].
  apply subseq_length in Hs. rewrite !length_map in Hs. exact Hs.
Qed.

Lemma output_subsequence_witness :
  subseq
    (map text_and_end (out_words (Samples.result_of
       [mkWord "a" Samples.f0 Samples.f1; mkWord "c" Samples.f1_2 Samples.f2])))
    (map text_and_end (words (Samples.transcript_of Samples.zero_between))) /\
  (length (out_words (Samples.result_of
       [mkWord "a" Samples.f0 Samples.f1; mkWord "c" Samples.f1_2 Samples.f2]))
   <= length (words (Samples.transcript_of Samples.zero_between)))%nat.
Proof.
  apply (output_subsequence (Samples.transcript_of Samples.zero_between)).
  reflexivity.
Defined.

(** X3: where an output word comes from. Each output word is an input word,
    either unchanged or with its start replaced by the end of the output
    word just before it; the start is replaced only when it was earlier than
    that end. No other timestamp is ever produced. *)
Theorem output_word_origin (t : Transcript) (res : AlignmentResult) :
  align_audio t = Ok res ->
  forall (l1 : list Word) (b : Word) (l2 : list Word),
    out_words res = l1 ++ b :: l2 ->
    exists w,
      In w (words t) /\
      (b = w \/
       exists a,
         last_item l1 = Ok a /\
         B64.ltb (B64.sub (start w) (end_ a)) B64.zero = true /\
         b = set_start w (end_ a)).
Proof.
  intros H. apply align_audio_ok in H. destruct H as (H & _).
  set (R := fun (l1 : list Word) (b : Word) =>
              exists w, In w (words t) /\
                (b = w \/
                 exists a, last_item l1 = Ok a /\
                   B64.ltb (B64.sub (start w) (end_ a)) B64.zero = true /\
                   b = set_start w (end_ a))).
  enough (Hall : forall l1 b l2, out_words res = l1 ++ b :: l2 -> R l1 b)
    by exact Hall.
  apply (loop_invariant (fun w => In w (words t))
           (fun _ v => forall l1 b l2, v = l1 ++ b :: l2 -> R l1 b))
    with (ws := words t) (i := 0%nat) (v := []).
  - intros i v w v' Hw Hv Hb. apply body_cases in Hb.
    destruct Hb as [[-> _] | (w' & Hc & _ & ->)]; [exact Hv |].
    apply prefix_property_snoc; [exact Hv |].
    exists w. split; [exact Hw |].
    apply check_overlap_cases in Hc.
    destruct Hc as [-> | (p & _ & Hp & Hg & ->)]; [now left |].
    right. exists p. auto.
  - apply Forall_forall. auto.
  - intros [| ? ?] ? ? E; discriminate E.
  - exact H.
Qed.

Lemma output_word_origin_witness :
  exists w,
    In w (words (Samples.transcript_of Samples.overlapping)) /\
    (mkWord "b" Samples.f1 Samples.f2 = w \/
     exists a,
       last_item [mkWord "a" Samples.f0 Samples.f1] = Ok a /\
       B64.ltb (B64.sub (start w) (end_ a)) B64.zero = true /\
       mkWord "b" Samples.f1 Samples.f2 = set_start w (end_ a)).
Proof.
  apply (output_word_origin (Samples.transcript_of Samples.overlapping)
           (Samples.result_of
              [mkWord "a" Samples.f0 Samples.f1; mkWord "b" Samples.f1 Samples.f2])
           eq_refl
           [mkWord "a" Samples.f0 Samples.f1] (mkWord "b" Samples.f1 Samples.f2) []
           eq_refl).
Defined.



(** X5: on a transcript whose timestamps are all finite, the output's
    timestamps are finite too and every output word has a strictly positive
    duration, [start < end]. *)
Theorem finite_output_positive_duration (t : Transcript) (res : AlignmentResult) :
  Forall wf_word (words t) ->
  Forall finite_word (words t) ->
  align_audio t = Ok res ->
  Forall finite_word (out_words res) /\ Forall start_lt_end (out_words res).
Proof.
  intros Hwf Hfin H. apply align_audio_ok in H. destruct H as (H & _).
  apply (loop_invariant (fun w => wf_word w /\ finite_word w)
           (fun _ v => Forall wf_word v /\ Forall finite_word v /\
                       Forall start_lt_end v)) in H.
  - destruct H as (_ & H1 & H2). auto.
  - intros i v w v' [Hw Fw] (Hv & Fv & Sv) Hb.
    assert (Hv' : Forall wf_word v') by (eapply body_wf; eauto).
    apply body_cases in Hb.
    destruct Hb as [[-> _] | (w' & Hc & Hz & ->)]; [auto |].
    apply Forall_app in Hv'. destruct Hv' as [_ Hw'].
    inversion Hw' as [| ? ? [Vs Ve] _]; subst.
    assert (Fw' : finite_word w').
    { apply check_overlap_cases in Hc.
      destruct Hc as [-> | (p & _ & Hp & _ & ->)]; [exact Fw |].
      apply last_item_In in Hp. rewrite Forall_forall in Fv.
      destruct (Fv p Hp) as [_ Fp]. destruct Fw as [_ Fe]. split; assumption. }
    split; [apply Forall_app; auto |].
    split; apply Forall_app; split; auto.
    constructor; [| constructor]. destruct Fw' as [Fs Fe].
    unfold start_lt_end. unfold zero_duration in Hz.
    apply B64Order.positive_sub_lt; assumption.
  - rewrite Forall_forall in *. auto.
  - repeat split; constructor.
Qed.

Lemma finite_output_positive_duration_witness :
  Forall finite_word (out_words (Samples.result_of
     [mkWord "a" Samples.f0 Samples.f1; mkWord "b" Samples.f1 Samples.f2])) /\
  Forall start_lt_end (out_words (Samples.result_of
     [mkWord "a" Samples.f0 Samples.f1; mkWord "b" Samples.f1 Samples.f2])).
Proof.
  apply (finite_output_positive_duration
           (Samples.transcript_of Samples.overlapping)).
  - sample_words.
  - sample_words.
  - reflexivity.
Defined.



(** X7: the first word is never modified and never preceded: a non-empty
    output starts with the transcript's first word, exactly as it is in the
    input. *)
Theorem first_word_unchanged (t : Transcript) (res : AlignmentResult) :
  align_audio t = Ok res ->
  out_words res <> [] ->
  exists w0 rest out',
    words t = w0 :: rest /\ out_words res = w0 :: out'.
Proof.
  intros H Hne. apply align_audio_ok in H. destruct H as (H & _).
  unfold validate_words in H.
  destruct (words t) as [| w0 rest] eqn:E.
  - injection H as H. congruence.
  - exists w0, rest. destruct (zero_duration w0) eqn:Hz.
    + rewrite (loop_first_dropped _ _ Hz) in H.
      destruct rest as [| w1 rest]; [injection H as H; congruence |].
      discriminate H.
    + rewrite (loop_first_accepted _ _ Hz) in H.
      apply loop_subseq in H. destruct H as (added & -> & _).
      exists added. auto.
Qed.

Lemma first_word_unchanged_witness :
  exists w0 rest out',
    words (Samples.transcript_of Samples.overlapping) = w0 :: rest /\
    out_words (Samples.result_of
      [mkWord "a" Samples.f0 Samples.f1; mkWord "b" Samples.f1 Samples.f2])
    = w0 :: out'.
Proof.
  apply (first_word_unchanged (Samples.transcript_of Samples.overlapping)).
  - reflexivity.
  - discriminate.
Defined.

(** ** The script and the typed pass *)

Lemma script_bind_return {A B : Type} (m : Script.M A) (k : A -> Script.M B)
    (out : list Script.effect) (b : B) :
  Script.bind m k = (out, Script.Return b) ->
  exists out1 a out2,
    m = (out1, Script.Return a) /\ k a = (out2, Script.Return b) /\
    out = out1 ++ out2.
Proof.
  unfold Script.bind. destruct m as [out1 [a | e]]; [| discriminate].
  destruct (k a) as [out2 r] eqn:Hk. intros [= <- ->].
  exists out1, a, out2. auto.
Qed.





Lemma script_bind_snd {A B : Type} (m : Script.M A) (k : A -> Script.M B) :
  snd (Script.bind m k) =
  match snd m with
  | Script.Return a => snd (k a)
  | Script.Throw e => Script.Throw e
  end.
Proof.
  destruct m as [out [a | e]]; simpl; [| reflexivity].
  destruct (k a); reflexivity.
Qed.



(** The loop only prints. *)
(** How one iteration can end: an exception and nothing printed, a word
    appended and nothing printed, or one warning and the list unchanged. *)
Lemma script_body_shape (i : nat) (v : list Script.word_dict) (w : Script.word_dict) :
  (fst (Script.body i v w) = [] /\
   exists e, snd (Script.body i v w) = Script.Throw e) \/
  (fst (Script.body i v w) = [] /\
   exists w', snd (Script.body i v w) = Script.Return (v ++ [w'])) \/
  (exists name,
     fst (Script.body i v w) = [Script.Stdout (Script.warning name)] /\
     snd (Script.body i v w) = Script.Return v).
Proof.
  unfold Script.body.
  set (c := if (0 <? i)%nat then _ else _).
  assert (Hc : fst c = []).
  { subst c. destruct (0 <? i)%nat; [| reflexivity].
    destruct (Script.last_item v) as [o [p | e]] eqn:Hl.
    - assert (o = []).
      { clear - Hl. induction v as [| a v IH]; [discriminate |].
        destruct v; [injection Hl as <- _; reflexivity | auto]. }
      subst o. unfold Script.bind.
      destruct (Script.d_end p); simpl; [| reflexivity].
      destruct (Script.d_start w); simpl; [| reflexivity].
      destruct (B64.ltb _ B64.zero); [reflexivity |].
      destruct (B64.gtb _ B64.half); reflexivity.
    - assert (o = []).
      { clear - Hl. induction v as [| a v IH]; [injection Hl as <- _; reflexivity |].
        destruct v; [discriminate | auto]. }
      subst o. reflexivity. }
  destruct c as [o [w' | e]]; simpl in Hc; subst o; simpl; [| left; eauto].
  destruct (Script.d_end w'); simpl; [| left; eauto].
  destruct (Script.d_start w'); simpl; [| left; eauto].
  destruct (B64.leb _ B64.zero); simpl; [| right; left; eauto].
  destruct (Script.d_word w'); simpl; [| left; eauto].
  right. right. eexists. split; reflexivity.
Qed.

Lemma script_body_stdout (i : nat) (v : list Script.word_dict) (w : Script.word_dict) :
  Forall Script.is_stdout (fst (Script.body i v w)).
Proof.
  destruct (script_body_shape i v w) as [[-> _] | [[-> _] | (name & -> & _)]];
    repeat constructor. eexists. reflexivity.
Qed.

Lemma script_loop_stdout (ws : list Script.word_dict) :
  forall (i : nat) (v : list Script.word_dict),
    Forall Script.is_stdout (fst (Script.loop i v ws)).
Proof.
  induction ws as [| w ws IH]; intros i v; simpl; [constructor |].
  pose proof (script_body_stdout i v w) as Hb.
  destruct (Script.body i v w) as [o [v' | e]]; simpl in *; [| exact Hb].
  specialize (IH (S i) v').
  destruct (Script.loop (S i) v' ws) as [o' r]. simpl in *.
  apply Forall_app. auto.
Qed.

Lemma stdout_only (out : list Script.effect) :
  Forall Script.is_stdout out ->
  Script.writes out = [] /\ Script.reads out = [] /\ Script.stderr out = [].
Proof.
  induction 1 as [| e out [line ->] _ IH]; [auto |].
  simpl. exact IH.
Qed.

Lemma writes_app (a b : list Script.effect) :
  Script.writes (a ++ b) = Script.writes a ++ Script.writes b.
Proof. apply flat_map_app. Qed.

Lemma reads_app (a b : list Script.effect) :
  Script.reads (a ++ b) = Script.reads a ++ Script.reads b.
Proof. apply flat_map_app. Qed.

Lemma stderr_app (a b : list Script.effect) :
  Script.stderr (a ++ b) = Script.stderr a ++ Script.stderr b.
Proof. apply flat_map_app. Qed.

Ltac script_step :=
  cbn [Script.bind Script.emit Script.ret Script.throw Script.print
       Script.item fst snd app].

(** What a run of [align_audio] does to files: it reads the transcript
    file and nothing else, prints nothing on the error stream, and writes the
    output file exactly when it returns, with the data it returns. *)
Lemma script_align_audio_files (fs : Script.file_system) (a p o : string) :
  Script.reads (fst (Script.align_audio fs a p o)) = [p] /\
  Script.stderr (fst (Script.align_audio fs a p o)) = [] /\
  Script.writes (fst (Script.align_audio fs a p o)) =
    match snd (Script.align_audio fs a p o) with
    | Script.Return d => [(o, d)]
    | Script.Throw _ => []
    end.
Proof.
  unfold Script.align_audio, Script.open_load, Script.open_dump.
  destruct (Script.read_json fs p) as [msg | t]; script_step; [auto |].
  destruct (Script.d_words t) as [ws |]; script_step; [| auto].
  pose proof (script_loop_stdout ws 0 []) as Hl.
  destruct (Script.loop 0 [] ws) as [ol [v | e]]; simpl fst in Hl;
    destruct (stdout_only ol Hl) as (Hw & Hr & He); script_step.
  - destruct (Script.d_text t) as [tx |]; script_step.
    + destruct (Script.open_write fs o) as [msg |]; script_step.
      * rewrite app_nil_r.
        change (?x :: ?y :: ?z :: ol) with ([x; y; z] ++ ol).
        rewrite writes_app, reads_app, stderr_app, Hw, Hr, He. auto.
      * change (?x :: ?y :: ?z :: ol ++ ?r) with ([x; y; z] ++ ol ++ r).
        rewrite !writes_app, !reads_app, !stderr_app, Hw, Hr, He. auto.
    + rewrite app_nil_r.
      change (?x :: ?y :: ?z :: ol) with ([x; y; z] ++ ol).
      rewrite writes_app, reads_app, stderr_app, Hw, Hr, He. auto.
  - change (?x :: ?y :: ?z :: ol) with ([x; y; z] ++ ol).
    rewrite writes_app, reads_app, stderr_app, Hw, Hr, He. auto.
Qed.

(** ** Properties of the script *)




(** X10: the script touches only the files named on the command line: the
    only path it ever opens for reading is [argv[2]], the only path it ever
    writes is [argv[3]], and the audio file [argv[1]] is never opened. With a
    wrong argument count no file is opened at all. *)
Theorem files_touched (fs : Script.file_system) (argv : list string) :
  (forall q, In q (Script.reads (fst (Script.main fs argv))) ->
             length argv = 4%nat /\ nth_error argv 2 = Some q) /\
  (forall q d, In (q, d) (Script.writes (fst (Script.main fs argv))) ->
               length argv = 4%nat /\ nth_error argv 3 = Some q).
Proof.
  destruct argv as [| s [| a [| p [| o [| x rest]]]]];
    try (simpl; split; [intros q [] | intros q d []]).
  unfold Script.main.
  destruct (script_align_audio_files fs a p o) as (Hr & _ & Hw).
  destruct (Script.align_audio fs a p o) as [out [d | e]]; simpl in *.
  - rewrite Hr, Hw. split.
    + intros q [<- | []]. auto.
    + intros q d' [[= <- <-] | []]. auto.
  - rewrite reads_app, writes_app, Hr, Hw. simpl. split.
    + intros q [<- | []]. auto.
    + intros q d' [].
Qed.

Ltac snd_step :=
  rewrite ?script_bind_snd;
  cbn [Script.emit Script.print Script.ret Script.throw Script.item snd];
  cbv beta.

(** A word without a timestamp stops the loop, whatever came before. *)
Lemma script_body_untimed (i : nat) (v : list Script.word_dict)
    (w : Script.word_dict) :
  Script.timed w = false -> exists e, snd (Script.body i v w) = Script.Throw e.
Proof.
  intros Ht. unfold Script.body, Script.timed in *.
  destruct (0 <? i)%nat.
  - rewrite !script_bind_snd.
    destruct (Script.last_item v) as [o [p | e]]; cbn [snd]; [| eauto].
    rewrite !script_bind_snd.
    destruct (Script.d_end p) as [pe |]; cbn [Script.item Script.ret Script.throw snd]; [| eauto].
    rewrite !script_bind_snd.
    destruct (Script.d_start w) as [s |] eqn:Hs; cbn [Script.item Script.ret Script.throw snd]; [| eauto].
    destruct (Script.d_end w) as [e |] eqn:He; [discriminate |].
    destruct (B64.ltb _ B64.zero); [| destruct (B64.gtb _ B64.half)];
      cbn [Script.ret snd]; rewrite !script_bind_snd;
      cbn [Script.set_start Script.d_end]; rewrite ?He; simpl; eauto.
  - rewrite !script_bind_snd. cbn [Script.ret snd].
    rewrite !script_bind_snd.
    destruct (Script.d_end w) as [e |]; cbn [Script.item Script.ret Script.throw snd]; [| eauto].
    rewrite !script_bind_snd.
    destruct (Script.d_start w) as [s |]; [discriminate |].
    simpl. eauto.
Qed.

Lemma script_loop_untimed (ws : list Script.word_dict) :
  Exists (fun w => Script.timed w = false) ws ->
  forall (i : nat) (v : list Script.word_dict),
    exists e, snd (Script.loop i v ws) = Script.Throw e.
Proof.
  induction 1 as [w ws Hw | w ws _ IH]; intros i v; simpl;
    rewrite script_bind_snd.
  - destruct (script_body_untimed i v w Hw) as [e ->]. eauto.
  - destruct (snd (Script.body i v w)) as [v' | e]; [apply IH | eauto].
Qed.

(** What the loop printed when it returns: one warning for each word it
    left out. *)
Lemma script_loop_warnings (ws : list Script.word_dict) :
  forall (i : nat) (v out : list Script.word_dict) (tr : list Script.effect),
    Script.loop i v ws = (tr, Script.Return out) ->
    exists names,
      tr = map (fun n => Script.Stdout (Script.warning n)) names /\
      (length names + length out = length v + length ws)%nat.
Proof.
  induction ws as [| w ws IH]; intros i v out tr H; simpl in H.
  - injection H as <- <-. exists []. simpl. auto.
  - apply script_bind_return in H.
    destruct H as (tr1 & v1 & tr2 & Hb & Hl & ->).
    apply IH in Hl. destruct Hl as (names & -> & Hlen).
    pose proof (script_body_shape i v w) as Hs. rewrite Hb in Hs. simpl in Hs.
    destruct Hs as [[_ [e He]] | [[-> [w' Hw']] | (name & -> & Hv)]].
    + discriminate.
    + injection Hw' as ->. exists names. split; [reflexivity |].
      rewrite length_app in Hlen. simpl in *. lia.
    + injection Hv as ->. exists (name :: names). split; [reflexivity |].
      simpl. lia.
Qed.

(** X11: a transcript that lacks the ['words'] key, the ['text'] key, or a
    ['start'] or ['end'] of any word never yields an output: [align_audio]
    raises, no file is written and the script exits with status 1. *)
Theorem incomplete_transcript_fails
    (fs : Script.file_system) (script a p o : string)
    (t : Script.transcript_dict) :
  Script.read_json fs p = inr t ->
  (Script.d_words t = None \/
   Script.d_text t = None \/
   exists ws, Script.d_words t = Some ws /\
              Exists (fun w => Script.timed w = false) ws) ->
  (exists e, snd (Script.align_audio fs a p o) = Script.Throw e) /\
  Script.writes (fst (Script.align_audio fs a p o)) = [] /\
  snd (Script.main fs [script; a; p; o]) = 1%nat.
Proof.
  intros Hr Hbad.
  assert (He : exists e, snd (Script.align_audio fs a p o) = Script.Throw e).
  { unfold Script.align_audio, Script.open_load.
    snd_step. snd_step. rewrite Hr. snd_step. snd_step.
    destruct (Script.d_words t) as [ws |] eqn:Hw; snd_step; [| eauto].
    snd_step. snd_step.
    destruct Hbad as [Hb | [Hb | (ws' & Hb & Hex)]].
    - discriminate.
    - destruct (snd (Script.loop 0 [] ws)); [| eauto].
      snd_step. rewrite Hb. simpl. eauto.
    - injection Hb as <-.
      destruct (script_loop_untimed ws Hex 0 []) as [e ->]. eauto. }
  destruct He as [e He].
  destruct (script_align_audio_files fs a p o) as (_ & _ & Hw).
  rewrite He in Hw. split; [eauto |]. split; [exact Hw |].
  unfold Script.main.
  destruct (Script.align_audio fs a p o) as [out [d | e']];
    [discriminate | reflexivity].
Qed.

Lemma incomplete_transcript_fails_witness :
  (exists e,
     snd (Script.align_audio
            (Script.holding "t.json"
               (Script.mkTranscriptDict (Some "a"%string) None
                  (Some [Script.mkWordDict (Some "a"%string) None
                           (Some Samples.f1)])))
            "a.wav" "t.json" "o.json") = Script.Throw e) /\
  Script.writes (fst (Script.align_audio
            (Script.holding "t.json"
               (Script.mkTranscriptDict (Some "a"%string) None
                  (Some [Script.mkWordDict (Some "a"%string) None
                           (Some Samples.f1)])))
            "a.wav" "t.json" "o.json")) = [] /\
  snd (Script.main
         (Script.holding "t.json"
            (Script.mkTranscriptDict (Some "a"%string) None
               (Some [Script.mkWordDict (Some "a"%string) None
                        (Some Samples.f1)])))
         ["align.py"; "a.wav"; "t.json"; "o.json"]%string) = 1%nat.
Proof.
  apply (incomplete_transcript_fails
           (Script.holding "t.json"
              (Script.mkTranscriptDict (Some "a"%string) None
                 (Some [Script.mkWordDict (Some "a"%string) None
                          (Some Samples.f1)])))
           "align.py" "a.wav" "t.json" "o.json"
           (Script.mkTranscriptDict (Some "a"%string) None
              (Some [Script.mkWordDict (Some "a"%string) None
                       (Some Samples.f1)]))).
  - reflexivity.
  - right. right. eexists. split; [reflexivity |].
    apply Exists_cons_hd. reflexivity.
Defined.

(** X12: the order in which missing keys are noticed. Without ['words'] the
    run stops with [KeyError('words')] right after its first line. Without
    ['text'] the whole word list is validated first and the run then stops
    with [KeyError('text')], unless the loop raised before. *)
Theorem missing_key_order
    (fs : Script.file_system) (a p o : string) (t : Script.transcript_dict) :
  Script.read_json fs p = inr t ->
  (Script.d_words t = None ->
   Script.align_audio fs a p o =
   ([Script.ReadFile p;
     Script.Stdout "Using WhisperX timestamps (already well-aligned)"],
    Script.Throw (Script.KeyError "words"))) /\
  (forall ws, Script.d_words t = Some ws -> Script.d_text t = None ->
   snd (Script.align_audio fs a p o) =
   match snd (Script.loop 0 [] ws) with
   | Script.Return _ => Script.Throw (Script.KeyError "text")
   | Script.Throw e => Script.Throw e
   end).
Proof.
  intros Hr. split.
  - intros Hw. unfold Script.align_audio, Script.open_load.
    rewrite Hr. script_step. rewrite Hw. reflexivity.
  - intros ws Hw Ht. unfold Script.align_audio, Script.open_load.
    snd_step. snd_step. rewrite Hr. snd_step. snd_step.
    rewrite Hw. snd_step. snd_step. snd_step.
    destruct (snd (Script.loop 0 [] ws)); [| reflexivity].
    snd_step. rewrite Ht. reflexivity.
Qed.

Lemma missing_key_order_witness :
  (Script.d_words (Script.mkTranscriptDict None None None) = None ->
   Script.align_audio
     (Script.holding "t.json" (Script.mkTranscriptDict None None None))
     "a.wav" "t.json" "o.json" =
   ([Script.ReadFile "t.json";
     Script.Stdout "Using WhisperX timestamps (already well-aligned)"],
    Script.Throw (Script.KeyError "words"))) /\
  (forall ws,
     Script.d_words (Script.mkTranscriptDict None None None) = Some ws ->
     Script.d_text (Script.mkTranscriptDict None None None) = None ->
   snd (Script.align_audio
          (Script.holding "t.json" (Script.mkTranscriptDict None None None))
          "a.wav" "t.json" "o.json") =
   match snd (Script.loop 0 [] ws) with
   | Script.Return _ => Script.Throw (Script.KeyError "text")
   | Script.Throw e => Script.Throw e
   end).
Proof.
  apply (missing_key_order
           (Script.holding "t.json" (Script.mkTranscriptDict None None None))
           "a.wav" "t.json" "o.json").
  reflexivity.
Defined.



(** X14: what a successful run leaves behind, in order: the transcript is
    read, the two header lines are printed, one warning is printed for each
    word left out, the output file is written once, and the two closing
    lines are printed. The number of warnings is the number of input words
    minus the number of words written. *)
Theorem successful_run_trace
    (fs : Script.file_system) (a p o : string) (d : Script.output_dict) :
  snd (Script.align_audio fs a p o) = Script.Return d ->
  exists t ws names,
    Script.read_json fs p = inr t /\
    Script.d_words t = Some ws /\
    fst (Script.align_audio fs a p o) =
      [Script.ReadFile p;
       Script.Stdout "Using WhisperX timestamps (already well-aligned)";
       Script.Stdout ("Total words: " ++ Script.str_nat (length ws))]
      ++ map (fun n => Script.Stdout (Script.warning n)) names
      ++ [Script.WriteFile o d;
          Script.Stdout ("Alignment saved to: " ++ o);
          Script.Stdout ("Validated words: "
                         ++ Script.str_nat (length (Script.o_words d)))] /\
    (length names + length (Script.o_words d) = length ws)%nat.
Proof.
  unfold Script.align_audio, Script.open_load, Script.open_dump.
  destruct (Script.read_json fs p) as [msg | t]; script_step; [discriminate |].
  destruct (Script.d_words t) as [ws |] eqn:Hw; script_step; [| discriminate].
  destruct (Script.loop 0 [] ws) as [ol [v | e]] eqn:Hl; script_step;
    [| discriminate].
  destruct (Script.d_text t) as [tx |]; script_step; [| discriminate].
  destruct (Script.open_write fs o) as [msg |]; script_step; [discriminate |].
  intros [= <-].
  apply script_loop_warnings in Hl. destruct Hl as (names & -> & Hlen).
  exists t, ws, names.
  split; [reflexivity |]. split; [exact Hw |].
  split; [reflexivity | exact Hlen].
Qed.

Lemma successful_run_trace_witness :
  exists t ws names,
    Script.read_json
      (Script.holding "t.json"
         (Script.of_transcript (Samples.transcript_of Samples.zero_between)))
      "t.json" = inr t /\
    Script.d_words t = Some ws /\
    fst (Script.align_audio
           (Script.holding "t.json"
              (Script.of_transcript (Samples.transcript_of Samples.zero_between)))
           "a.wav" "t.json" "o.json") =
      [Script.ReadFile "t.json";
       Script.Stdout "Using WhisperX timestamps (already well-aligned)";
       Script.Stdout ("Total words: " ++ Script.str_nat (length ws))]
      ++ map (fun n => Script.Stdout (Script.warning n)) names
      ++ [Script.WriteFile "o.json"
            (Script.of_result (Samples.result_of
               [mkWord "a" Samples.f0 Samples.f1;
                mkWord "c" Samples.f1_2 Samples.f2]));
          Script.Stdout ("Alignment saved to: " ++ "o.json");
          Script.Stdout ("Validated words: "
                         ++ Script.str_nat (length (Script.o_words
            (Script.of_result (Samples.result_of
               [mkWord "a" Samples.f0 Samples.f1;
                mkWord "c" Samples.f1_2 Samples.f2])))))] /\
    (length names + length (Script.o_words
            (Script.of_result (Samples.result_of
               [mkWord "a" Samples.f0 Samples.f1;
                mkWord "c" Samples.f1_2 Samples.f2]))) = length ws)%nat.
Proof.
  apply (successful_run_trace
           (Script.holding "t.json"
              (Script.of_transcript (Samples.transcript_of Samples.zero_between)))
           "a.wav" "t.json" "o.json").
  reflexivity.
Defined.
